(** * DocumentMemberList: the sharing dialog's list of document members

    A shallow embedding of
    [app/components/Sharing/Document/DocumentMemberList.tsx]: the two display
    orders (members, groups), the three mutation handlers, the mount effect,
    the permission options and the render function, with the properties the
    specification states about them. *)

From Stdlib Require Import List NArith ZArith Bool String Ascii Lia.
From Stdlib Require Import Permutation Sorted RelationClasses.
Import ListNotations.

Set Implicit Arguments.

(** ** JavaScript strings

    A JavaScript string is a sequence of UTF-16 code units.  The relational
    operators [<] and [>] compare two strings code unit by code unit, and
    [===] is equality of the sequences. *)

Module JsString.

Definition t := list N.

(** A literal written with Basic Latin characters. *)
Definition lit (s : string) : t := map N_of_ascii (list_ascii_of_string s).

(** The comparison underlying [a < b], [a > b] and [a === b]. *)
Fixpoint compareUnits (a b : t) : comparison :=
  match a, b with
  | [], [] => Eq
  | [], _ :: _ => Lt
  | _ :: _, [] => Gt
  | x :: a', y :: b' =>
      match N.compare x y with
      | Eq => compareUnits a' b'
      | c => c
      end
  end.

Definition strictEq (a b : t) : bool :=
  match compareUnits a b with Eq => true | _ => false end.

Definition lt (a b : t) : Prop := compareUnits a b = Lt.
Definition le (a b : t) : Prop := compareUnits a b <> Gt.

(** [xs.includes(x)] *)
Definition includes (xs : list t) (x : t) : bool := existsb (strictEq x) xs.

(** A stand-in for [String.prototype.toLocaleLowerCase], right on Basic
    Latin text in a locale without special casing rules: the capitals A..Z
    move to a..z, every other code unit stays (capitals of other scripts
    are not lowered).  The properties take the lower-casing as a parameter;
    the stand-in only serves on sample names of Basic Latin letters and
    digits. *)
Definition lowerUnit (u : N) : N :=
  if ((65 <=? u) && (u <=? 90))%N then (u + 32)%N else u.

Definition toLowerBasicLatin (s : t) : t := map lowerUnit s.

End JsString.

Definition jsstring : Type := JsString.t.
Notation "'js' s" := (JsString.lit s%string) (at level 9, s at level 0, only parsing).

(** ** [Array.prototype.sort]

    ECMAScript fixes the result of [sort] only for a consistent comparator.
    For any other comparator the order is implementation-defined, and it
    depends on which of the two elements the engine hands to the comparator
    first.  Both conventions are modelled by a stable insertion sort:
    - [LaterFirst]: [comparefn(later, earlier) < 0] moves the later element
      in front (as V8 decides the order of two elements);
    - [EarlierFirst]: [comparefn(earlier, later) > 0] moves the earlier
      element behind.
    The model gives the engine's result for a consistent comparator, and
    for any comparator on an array of two elements.  On a longer array with
    an inconsistent comparator an engine may return another rearrangement
    than this model. *)

Inductive CallOrder := LaterFirst | EarlierFirst.

Section ArraySort.
Variable A : Type.
Variable o : CallOrder.
Variable comparefn : A -> A -> Z.

(** [x] stands before [y]; does the engine place it behind [y]? *)
Definition placedAfter (x y : A) : bool :=
  match o with
  | LaterFirst => (comparefn y x <? 0)%Z
  | EarlierFirst => (0 <? comparefn x y)%Z
  end.

Fixpoint sortInsert (x : A) (l : list A) : list A :=
  match l with
  | [] => [x]
  | y :: l' => if placedAfter x y then y :: sortInsert x l' else x :: l
  end.

Definition Array_sort (l : list A) : list A := fold_right sortInsert [] l.

(** A comparator whose sign flips when its arguments are exchanged. *)
Definition SignFlips : Prop :=
  forall x y, (0 < comparefn x y <-> comparefn y x < 0)%Z.

(** The order a comparator asks for. *)
Definition comesBefore (x y : A) : Prop := (comparefn x y <= 0)%Z.
End ArraySort.

(** ** lodash [orderBy] with one iteratee

    [orderBy] pairs every element with its criterion and its position,
    sorts the pairs with [compareMultiple] and returns the elements. *)

Module Lodash.

Inductive Order := asc | desc.

Record Decorated (A : Type) := mkDecorated
  { criteria : jsstring; index : Z; value : A }.

Definition compareAscending (v other : jsstring) : Z :=
  match JsString.compareUnits v other with
  | Gt => 1
  | Lt => -1
  | Eq => 0
  end.

Definition compareMultiple {A} (order : Order) (object other : Decorated A)
  : Z :=
  let result := compareAscending (criteria object) (criteria other) in
  if (result =? 0)%Z
  then (index object - index other)%Z
  else (result * match order with desc => -1 | asc => 1 end)%Z.

Fixpoint decorate {A} (iteratee : A -> jsstring) (i : Z) (l : list A)
  : list (Decorated A) :=
  match l with
  | [] => []
  | x :: l' => mkDecorated (iteratee x) i x :: decorate iteratee (i + 1) l'
  end.

Definition orderBy {A} (o : CallOrder) (collection : list A)
    (iteratee : A -> jsstring) (order : Order) : list A :=
  map (@value A)
      (Array_sort o (compareMultiple order) (decorate iteratee 0 collection)).

End Lodash.

(** ** The data model *)

Inductive DocumentPermission := Read | ReadWrite | Admin.

(** A value of the permission select: a permission or [EmptySelectValue]. *)
Inductive SelectValue :=
| PermissionValue (p : DocumentPermission)
| EmptySelectValue.

Module User.
Record t := mk { id : jsstring; name : jsstring }.
End User.

Module Document.
Record t := mk { id : jsstring; members : list User.t }.
End Document.

Module Group.
Record t := mk { id : jsstring; name : jsstring; memberCount : N }.
End Group.

Module GroupMembership.
Record t := mk
  { id : jsstring;
    groupId : jsstring;
    group : Group.t;
    permission : DocumentPermission }.
End GroupMembership.

(** ** The two display orders *)

Section DisplayOrder.
Variable o : CallOrder.
Variable toLocaleLowerCase : jsstring -> jsstring.
Variable localeCompare : jsstring -> jsstring -> Z.
Variable invitedInSession : list jsstring.

Definition sessionPrefix (id : jsstring) : jsstring :=
  if JsString.includes invitedInSession id then js "_" else js "".

(** The iteratee handed to [orderBy]. *)
Definition memberKey (user : User.t) : jsstring :=
  sessionPrefix (User.id user) ++ toLocaleLowerCase (User.name user).

Definition members (document : Document.t) : list User.t :=
  Lodash.orderBy o (Document.members document) memberKey Lodash.asc.

(** The comparator handed to [sort] for the groups: the prefix is put in
    front of the first argument's name only. *)
Definition groupCompare (a b : GroupMembership.t) : Z :=
  localeCompare
    (sessionPrefix (Group.id (GroupMembership.group a))
       ++ Group.name (GroupMembership.group a))
    (Group.name (GroupMembership.group b)).

Definition groups (inDocument : list GroupMembership.t)
  : list GroupMembership.t :=
  Array_sort o groupCompare inDocument.
End DisplayOrder.


(** [String.prototype.localeCompare] depends on the locale's collation.  A
    stand-in in the manner of the Unicode root collation, right on names
    of Basic Latin letters, digits and the underscore: the underscore
    sorts before digits, digits before letters, letters by their place in
    the alphabet, and the case of a letter only breaks ties (lower case
    first).  Other punctuation and the units above 127 are not collated
    as a real collation would.  The properties take the collation as a
    parameter; the stand-in only serves on sample names. *)

Module Collation.

Definition isUpper (u : N) : bool := ((65 <=? u) && (u <=? 90))%N.
Definition isLower (u : N) : bool := ((97 <=? u) && (u <=? 122))%N.
Definition isDigit (u : N) : bool := ((48 <=? u) && (u <=? 57))%N.

Definition primary (u : N) : N :=
  if isUpper u then (1000 + (u - 65))%N
  else if isLower u then (1000 + (u - 97))%N
  else if isDigit u then (500 + (u - 48))%N
  else if (u <? 128)%N then u
  else (2000 + u)%N.

Definition tertiary (u : N) : N := if isUpper u then 1%N else 0%N.

Definition localeCompare (a b : jsstring) : Z :=
  match JsString.compareUnits (map primary a) (map primary b) with
  | Lt => -1
  | Gt => 1
  | Eq =>
      match JsString.compareUnits (map tertiary a) (map tertiary b) with
      | Lt => -1
      | Gt => 1
      | Eq => 0
      end
  end.

End Collation.

(** ** Effects

    A handler is an asynchronous function.  Its run is recorded as the list
    of the calls it makes on its collaborators (the two stores, the router,
    the notifications) together with the way its promise settles.  A store
    call may reject; the backend decides that for every call. *)

Inductive Event :=
| UserMembershipsDelete (documentId userId : jsstring)
| UserMembershipsCreate (documentId userId : jsstring)
    (permission : DocumentPermission)
| GroupMembershipsDelete (documentId groupId : jsstring)
| GroupMembershipsCreate (documentId groupId : jsstring)
    (permission : DocumentPermission)
| FetchDocumentMemberships (id : jsstring) (limit : N)
| GroupMembershipsFetchAll (documentId : jsstring)
| HistoryPush (path : jsstring)
| ToastSuccess (message : jsstring)
| ToastError (message : jsstring).

Inductive Error := mkError (message : jsstring).

Record Backend := mkBackend { rejects : Event -> option Error }.

Inductive Outcome (A : Type) :=
| Fulfilled (a : A)
| Rejected (e : Error).

Arguments Fulfilled {A} a.
Arguments Rejected {A} e.

Definition Async (A : Type) : Type := Backend -> list Event * Outcome A.

Definition ret {A} (a : A) : Async A := fun _ => ([], Fulfilled a).

Definition bind {A B} (m : Async A) (k : A -> Async B) : Async B :=
  fun b =>
    match m b with
    | (tr, Fulfilled a) => let (tr', r) := k a b in (tr ++ tr', r)
    | (tr, Rejected e) => (tr, Rejected e)
    end.

(** [try { body } catch (err) { handler }] *)
Definition tryCatch {A} (body : Async A) (handler : Error -> Async A)
  : Async A :=
  fun b =>
    match body b with
    | (tr, Fulfilled a) => (tr, Fulfilled a)
    | (tr, Rejected e) => let (tr', r) := handler e b in (tr ++ tr', r)
    end.

(** [await store.method(...)]: the call is recorded, and it settles as the
    backend says. *)
Definition await (call : Event) : Async unit :=
  fun b =>
    ([call],
     match rejects b call with
     | None => Fulfilled tt
     | Some e => Rejected e
     end).

(** A call on the router or on the notifications: recorded, never failing. *)
Definition emit (call : Event) : Async unit := fun _ => ([call], Fulfilled tt).

(** [void promise]: the promise is started and its settlement is dropped. *)
Definition void {A} (m : Async A) : Async unit :=
  fun b => (fst (m b), Fulfilled tt).

Notation "m1 ;; m2" := (bind m1 (fun _ => m2))
  (at level 61, right associativity).

Definition trace {A} (r : list Event * Outcome A) : list Event := fst r.
Definition outcome {A} (r : list Event * Outcome A) : Outcome A := snd r.

Definition isToastError (ev : Event) : bool :=
  match ev with ToastError _ => true | _ => false end.

Definition isToastSuccess (ev : Event) : bool :=
  match ev with ToastSuccess _ => true | _ => false end.

Definition isHistoryPush (ev : Event) : bool :=
  match ev with HistoryPush _ => true | _ => false end.

(** The calls on the two stores that change a membership. *)
Definition isStoreMutation (ev : Event) : bool :=
  match ev with
  | UserMembershipsDelete _ _ | UserMembershipsCreate _ _ _
  | GroupMembershipsDelete _ _ | GroupMembershipsCreate _ _ _ => true
  | _ => false
  end.

(** The calls made by the two operations that set a permission: update user
    permission, and update or remove group permission. *)
Definition isPermissionUpdate (ev : Event) : bool :=
  match ev with
  | UserMembershipsCreate _ _ _
  | GroupMembershipsDelete _ _ | GroupMembershipsCreate _ _ _ => true
  | _ => false
  end.

(** ** The rendered tree *)

Module UserMembership.
Record t := mk
  { id : jsstring;
    userId : jsstring;
    documentId : jsstring;
    permission : DocumentPermission }.
End UserMembership.

Module Permission.
Record t := mk { divider : bool; label : jsstring; value : SelectValue }.
End Permission.

Module InputMemberPermissionSelect.
Record t := mk
  { permissions : list Permission.t;
    onChange : SelectValue -> Async unit;
    disabled : bool;
    value : DocumentPermission }.
End InputMemberPermissionSelect.

Module ListItem.
Record t := mk
  { key : jsstring;
    title : jsstring;
    subtitle : jsstring;
    actions : option InputMemberPermissionSelect.t }.
End ListItem.

Module MemberListItem.
Record t := mk
  { key : jsstring;
    user : User.t;
    membership : option UserMembership.t;
    onRemove : Async unit;
    onUpdate : option (DocumentPermission -> Async unit);
    onLeave : option (Async unit) }.
End MemberListItem.

Inductive View :=
| LoadingIndicator
| Fragment (groupRows : list ListItem.t) (memberRows : list MemberListItem.t).

(** The result of [usePolicy(document)], as far as the component reads it. *)
Module Policy.
Record t := mk { manageUsers : bool; update : bool }.
End Policy.

(** A value interpolated into a translated message. *)
Inductive Interpolation :=
| IString (s : jsstring)
| INumber (n : N).

(** ** The component *)

Section DocumentMembersList.
(** The platform. *)
Variable o : CallOrder.
Variable toLocaleLowerCase : jsstring -> jsstring.
Variable localeCompare : jsstring -> jsstring -> Z.

(** Collaborators defined outside this file. *)
Variable t : jsstring -> list (jsstring * Interpolation) -> jsstring.
Variable homePath : jsstring.
Variable defaultLimit : N.
Variable getMembership : User.t -> Document.t -> option UserMembership.t.
Variable inDocument : jsstring -> list GroupMembership.t.

(** Props and hooks. *)
Variable document : Document.t.
Variable invitedInSession : list jsstring.
Variable user : User.t.
Variable can : Policy.t.

Definition documentId : jsstring := Document.id document.

Definition fetchUserMemberships : Async unit :=
  await (FetchDocumentMemberships documentId defaultLimit).

Definition fetchGroupMemberships : Async unit :=
  await (GroupMembershipsFetchAll documentId).

(** The effect run on mount. *)
Definition mountEffect : Async unit :=
  void fetchUserMemberships ;; void fetchGroupMemberships.

Definition handleRemoveUser (item : User.t) : Async unit :=
  tryCatch
    (await (UserMembershipsDelete (Document.id document) (User.id item)) ;;
     if JsString.strictEq (User.id item) (User.id user)
     then emit (HistoryPush homePath)
     else
       emit (ToastSuccess
               (t (js "{{ userName }} was removed from the document")
                  [(js "userName", IString (User.name item))])))
    (fun err => emit (ToastError (t (js "Could not remove user") []))).

Definition handleUpdateUser (user : User.t) (permission : DocumentPermission)
  : Async unit :=
  tryCatch
    (await (UserMembershipsCreate (Document.id document) (User.id user)
              permission) ;;
     emit (ToastSuccess
             (t (js "Permissions for {{ userName }} updated")
                [(js "userName", IString (User.name user))])))
    (fun err => emit (ToastError (t (js "Could not update user") []))).

Definition permissions : list Permission.t :=
  [ Permission.mk false (t (js "View only") []) (PermissionValue Read);
    Permission.mk false (t (js "Can edit") []) (PermissionValue ReadWrite);
    Permission.mk false (t (js "Manage") []) (PermissionValue Admin);
    Permission.mk true (t (js "Remove") []) EmptySelectValue ].

(** The [onChange] handler of a group's permission select. *)
Definition groupOnChange (membership : GroupMembership.t)
    (permission : SelectValue) : Async unit :=
  match permission with
  | EmptySelectValue =>
      await (GroupMembershipsDelete (Document.id document)
               (GroupMembership.groupId membership))
  | PermissionValue p =>
      await (GroupMembershipsCreate (Document.id document)
               (GroupMembership.groupId membership) p)
  end.

Definition groupRow (membership : GroupMembership.t) : ListItem.t :=
  ListItem.mk
    (GroupMembership.id membership)
    (Group.name (GroupMembership.group membership))
    (t (js "{{ count }} member")
       [(js "count",
         INumber (Group.memberCount (GroupMembership.group membership)))])
    (if Policy.manageUsers can
     then Some (InputMemberPermissionSelect.mk
                  permissions
                  (groupOnChange membership)
                  (negb (Policy.update can))
                  (GroupMembership.permission membership))
     else None).

Definition memberRow (item : User.t) : MemberListItem.t :=
  MemberListItem.mk
    (User.id item)
    item
    (getMembership item document)
    (handleRemoveUser item)
    (if Policy.manageUsers can
     then Some (fun permission => handleUpdateUser item permission)
     else None)
    (if JsString.strictEq (User.id item) (User.id user)
     then Some (handleRemoveUser item)
     else None).

Definition render (loadingUserMemberships loadingGroupMemberships : bool)
  : View :=
  if loadingUserMemberships || loadingGroupMemberships
  then LoadingIndicator
  else
    Fragment
      (map groupRow
         (groups o localeCompare invitedInSession
            (inDocument (Document.id document))))
      (map memberRow
         (members o toLocaleLowerCase invitedInSession document)).
End DocumentMembersList.

(** ** What a rendered tree lets the user do *)

Definition allSelectValues : list SelectValue :=
  [PermissionValue Read; PermissionValue ReadWrite; PermissionValue Admin;
   EmptySelectValue].

Definition allPermissions : list DocumentPermission := [Read; ReadWrite; Admin].

Definition listItemActions (row : ListItem.t) : list (Async unit) :=
  match ListItem.actions row with
  | Some select => map (InputMemberPermissionSelect.onChange select) allSelectValues
  | None => []
  end.

Definition memberListItemActions (row : MemberListItem.t) : list (Async unit) :=
  MemberListItem.onRemove row
    :: match MemberListItem.onUpdate row with
       | Some onUpdate => map onUpdate allPermissions
       | None => []
       end
    ++ match MemberListItem.onLeave row with
       | Some onLeave => [onLeave]
       | None => []
       end.

(** Every handler invocation the tree offers, with every argument. *)
Definition reachable (v : View) : list (Async unit) :=
  match v with
  | LoadingIndicator => []
  | Fragment groupRows memberRows =>
      flat_map listItemActions groupRows
        ++ flat_map memberListItemActions memberRows
  end.

Definition showsLists (v : View) : bool :=
  match v with
  | LoadingIndicator => false
  | Fragment _ _ => true
  end.

Definition showsLoadingIndicator (v : View) : bool :=
  match v with
  | LoadingIndicator => true
  | Fragment _ _ => false
  end.

(** The notifications. *)
Definition isNotification (ev : Event) : bool :=
  isToastSuccess ev || isToastError ev.

(** The rows of a tree; the loading indicator has none. *)
Definition groupRowsOf (v : View) : list ListItem.t :=
  match v with
  | LoadingIndicator => []
  | Fragment groupRows _ => groupRows
  end.

Definition memberRowsOf (v : View) : list MemberListItem.t :=
  match v with
  | LoadingIndicator => []
  | Fragment _ memberRows => memberRows
  end.

(** ** The two requests over the life of the component

    The component is rendered a first time, then its mount effect runs and
    starts the requests, then the requests settle one after the other in
    any order, and the component is rendered again after every step. *)

Inductive RequestState :=
| NotRequested
| InFlight
| Settled (fulfilled : bool).

Definition isSettled (s : RequestState) : bool :=
  match s with
  | Settled _ => true
  | _ => false
  end.

(** Modelled from the spec: the hook [useRequest], which owns the two
    loading flags, is not in this file.  The spec says that the fetches are
    issued on mount and that "the view blocks (shows a loading indicator)
    until both resolve": the flag of a request is set while the request is
    in flight and cleared once it has settled, fulfilled or rejected.
    [beforeRequest] is what the flag says on the first render, before the
    effect has made the request; the sentence of the spec asks for
    [true]. *)
Definition useRequest_loading (beforeRequest : bool) (s : RequestState)
  : bool :=
  match s with
  | NotRequested => beforeRequest
  | InFlight => true
  | Settled _ => false
  end.

Module Lifecycle.
Record t := mk
  { userMemberships : RequestState;
    groupMemberships : RequestState }.
End Lifecycle.

Definition firstRender : Lifecycle.t :=
  Lifecycle.mk NotRequested NotRequested.

(** A call on a store that fetches puts its request in flight. *)
Definition startRequest (s : Lifecycle.t) (call : Event) : Lifecycle.t :=
  match call with
  | FetchDocumentMemberships _ _ =>
      Lifecycle.mk InFlight (Lifecycle.groupMemberships s)
  | GroupMembershipsFetchAll _ =>
      Lifecycle.mk (Lifecycle.userMemberships s) InFlight
  | _ => s
  end.

Inductive LifecycleEvent :=
| EffectRuns
| UserMembershipsSettle
| GroupMembershipsSettle.

Definition fulfils (b : Backend) (call : Event) : bool :=
  match rejects b call with
  | None => true
  | Some _ => false
  end.

Section LifecycleModel.
Variable o : CallOrder.
Variable toLocaleLowerCase : jsstring -> jsstring.
Variable localeCompare : jsstring -> jsstring -> Z.
Variable t : jsstring -> list (jsstring * Interpolation) -> jsstring.
Variable homePath : jsstring.
Variable defaultLimit : N.
Variable getMembership : User.t -> Document.t -> option UserMembership.t.
Variable inDocument : jsstring -> list GroupMembership.t.
Variable document : Document.t.
Variable invitedInSession : list jsstring.
Variable user : User.t.
Variable can : Policy.t.
Variable b : Backend.

(** One step of the life of the component.  The effect runs once, after
    the first render, and starts what [mountEffect] calls; a request
    settles only while it is in flight. *)
Definition advance (s : Lifecycle.t) (ev : LifecycleEvent)
  : option Lifecycle.t :=
  match ev with
  | EffectRuns =>
      match Lifecycle.userMemberships s, Lifecycle.groupMemberships s with
      | NotRequested, NotRequested =>
          Some (fold_left startRequest
                  (trace (mountEffect defaultLimit document b)) s)
      | _, _ => None
      end
  | UserMembershipsSettle =>
      match Lifecycle.userMemberships s with
      | InFlight =>
          Some (Lifecycle.mk
                  (Settled
                     (fulfils b
                        (FetchDocumentMemberships (Document.id document)
                           defaultLimit)))
                  (Lifecycle.groupMemberships s))
      | _ => None
      end
  | GroupMembershipsSettle =>
      match Lifecycle.groupMemberships s with
      | InFlight =>
          Some (Lifecycle.mk
                  (Lifecycle.userMemberships s)
                  (Settled
                     (fulfils b
                        (GroupMembershipsFetchAll (Document.id document)))))
      | _ => None
      end
  end.

Fixpoint runLifecycle (evs : list LifecycleEvent) (s : Lifecycle.t)
  : option Lifecycle.t :=
  match evs with
  | [] => Some s
  | ev :: evs' =>
      match advance s ev with
      | Some s' => runLifecycle evs' s'
      | None => None
      end
  end.

(** What the component renders in a state of its life. *)
Definition viewAt (beforeRequest : bool) (s : Lifecycle.t) : View :=
  render o toLocaleLowerCase localeCompare t homePath getMembership
    inDocument document invitedInSession user can
    (useRequest_loading beforeRequest (Lifecycle.userMemberships s))
    (useRequest_loading beforeRequest (Lifecycle.groupMemberships s)).
End LifecycleModel.

(** ** The paginated membership fetch *)

(** Modelled from the spec: the paginated membership fetch is a collaborator
    whose code is not in this file
    ([userMemberships.fetchDocumentMemberships]).  A request for a page with
    a limit is answered with the first [limit] memberships of the document,
    and the answer is what the store loads. *)
Definition fetchDocumentMembershipsPage (stored : list UserMembership.t)
    (id : jsstring) (limit : N) : list UserMembership.t :=
  firstn (N.to_nat limit)
    (filter (fun m => JsString.strictEq (UserMembership.documentId m) id)
       stored).

(** The user memberships loaded by a run, given what the server holds. *)
Definition loadedUserMemberships (stored : list UserMembership.t)
    (tr : list Event) : list UserMembership.t :=
  flat_map
    (fun ev =>
       match ev with
       | FetchDocumentMemberships id limit =>
           fetchDocumentMembershipsPage stored id limit
       | _ => []
       end)
    tr.

(** ** Sample data *)

Module Sample.

Definition zoe : User.t := User.mk (js "u1") (js "Zoe").
Definition agent : User.t := User.mk (js "u2") (js "007").
Definition document : Document.t := Document.mk (js "d1") [zoe; agent].

Definition alpha : GroupMembership.t :=
  GroupMembership.mk (js "gm1") (js "g1")
    (Group.mk (js "g1") (js "alpha") 3) Read.
Definition beta : GroupMembership.t :=
  GroupMembership.mk (js "gm2") (js "g2")
    (Group.mk (js "g2") (js "beta") 5) ReadWrite.

Definition alice : User.t := User.mk (js "u3") (js "alice").
Definition bob : User.t := User.mk (js "u4") (js "Bob").
Definition team : Document.t := Document.mk (js "d2") [zoe; bob; alice].

Definition translate (key : jsstring)
    (values : list (jsstring * Interpolation)) : jsstring := key.

Definition failing (e : Error) : Backend := mkBackend (fun _ => Some e).

End Sample.

(** Unfolds a handler down to the calls it records. *)
Ltac run_handler :=
  unfold handleRemoveUser, handleUpdateUser, groupOnChange, tryCatch, bind,
    await, emit, trace, outcome;
  simpl.

(** * Properties *)

(** ** Code-unit order of strings *)

Lemma compareUnits_refl (a : jsstring) : JsString.compareUnits a a = Eq.
Proof.
  induction a as [|x a IH]; simpl; [reflexivity|].
  now rewrite N.compare_refl.
Qed.

Lemma compareUnits_eq (a b : jsstring) :
  JsString.compareUnits a b = Eq -> a = b.
Proof.
  revert b; induction a as [|x a IH]; intros [|y b]; simpl; try discriminate.
  - reflexivity.
  - destruct (N.compare x y) eqn:E; try discriminate.
    apply N.compare_eq in E. intros H. f_equal; auto.
Qed.

Lemma compareUnits_antisym (a b : jsstring) :
  JsString.compareUnits b a = CompOpp (JsString.compareUnits a b).
Proof.
  revert b; induction a as [|x a IH]; intros [|y b]; simpl; try reflexivity.
  rewrite (N.compare_antisym x y).
  destruct (N.compare x y); simpl; auto.
Qed.

Lemma compareUnits_lt_trans (a b c : jsstring) :
  JsString.compareUnits a b = Lt -> JsString.compareUnits b c = Lt ->
  JsString.compareUnits a c = Lt.
Proof.
  revert b c; induction a as [|x a IH]; intros [|y b] [|z c]; simpl;
    try discriminate; try reflexivity.
  destruct (N.compare x y) eqn:Exy; try discriminate;
    destruct (N.compare y z) eqn:Eyz; try discriminate; intros H1 H2.
  - apply N.compare_eq in Exy, Eyz. subst. rewrite N.compare_refl. eauto.
  - apply N.compare_eq in Exy. subst. now rewrite Eyz.
  - apply N.compare_eq in Eyz. subst. now rewrite Exy.
  - rewrite N.compare_lt_iff in Exy, Eyz.
    assert (x < z)%N as Hxz by lia.
    rewrite <- N.compare_lt_iff in Hxz. now rewrite Hxz.
Qed.

Lemma compareUnits_le_trans (a b c : jsstring) :
  JsString.le a b -> JsString.le b c -> JsString.le a c.
Proof.
  unfold JsString.le. intros Hab Hbc.
  destruct (JsString.compareUnits a b) eqn:Eab; try congruence.
  - apply compareUnits_eq in Eab. now subst.
  - destruct (JsString.compareUnits b c) eqn:Ebc; try congruence.
    + apply compareUnits_eq in Ebc. subst. congruence.
    + rewrite (compareUnits_lt_trans _ _ _ Eab Ebc). discriminate.
Qed.

Lemma compareUnits_app (p a b : jsstring) :
  JsString.compareUnits (p ++ a) (p ++ b) = JsString.compareUnits a b.
Proof.
  induction p as [|x p IH]; simpl; [reflexivity|].
  now rewrite N.compare_refl.
Qed.

Lemma strictEq_true (a b : jsstring) : JsString.strictEq a b = true <-> a = b.
Proof.
  unfold JsString.strictEq. split.
  - destruct (JsString.compareUnits a b) eqn:E; try discriminate.
    intros _. now apply compareUnits_eq.
  - intros ->. now rewrite compareUnits_refl.
Qed.

(** ** The model of [Array.prototype.sort] *)

Section ArraySortFacts.
Variable A : Type.
Variable comparefn : A -> A -> Z.

Lemma sortInsert_Permutation o (x : A) (l : list A) :
  Permutation (sortInsert o comparefn x l) (x :: l).
Proof.
  induction l as [|y l IH]; simpl; [reflexivity|].
  destruct (placedAfter o comparefn x y); [|reflexivity].
  rewrite IH. apply perm_swap.
Qed.

(** Whatever the comparator, [sort] only rearranges the array. *)
Lemma Array_sort_Permutation o (l : list A) :
  Permutation (Array_sort o comparefn l) l.
Proof.
  induction l as [|x l IH]; simpl; [reflexivity|].
  rewrite sortInsert_Permutation. now constructor.
Qed.

Hypothesis flips : SignFlips comparefn.

Lemma placedAfter_flips o x y :
  placedAfter o comparefn x y = (0 <? comparefn x y)%Z.
Proof.
  destruct o; simpl; [|reflexivity].
  destruct (Z.ltb_spec (comparefn y x) 0), (Z.ltb_spec 0 (comparefn x y));
    try reflexivity; pose proof (flips x y); lia.
Qed.

(** For such a comparator the two call orders give the same array. *)
Lemma Array_sort_call_order o o' (l : list A) :
  Array_sort o comparefn l = Array_sort o' comparefn l.
Proof.
  induction l as [|x l IH]; simpl; [reflexivity|].
  rewrite IH. generalize (Array_sort o' comparefn l). intros s.
  induction s as [|y s IHs]; simpl; [reflexivity|].
  rewrite !placedAfter_flips. now rewrite IHs.
Qed.

Hypothesis transitive : forall x y z,
  comesBefore comparefn x y -> comesBefore comparefn y z ->
  comesBefore comparefn x z.

Lemma sortInsert_sorted o x (l : list A) :
  StronglySorted (comesBefore comparefn) l ->
  StronglySorted (comesBefore comparefn) (sortInsert o comparefn x l).
Proof.
  induction 1 as [|y l Hl IH Hy]; simpl.
  - repeat constructor.
  - rewrite placedAfter_flips.
    destruct (Z.ltb_spec 0 (comparefn x y)) as [Hlt|Hle].
    + constructor; [exact IH|].
      assert (comesBefore comparefn y x) as Hyx
        by (unfold comesBefore; apply flips in Hlt; lia).
      eapply Permutation_Forall;
        [symmetry; apply sortInsert_Permutation|].
      constructor; assumption.
    + constructor; [constructor; assumption|].
      constructor; [exact Hle|].
      eapply Forall_impl; [|exact Hy]. intros z Hz.
      eapply transitive; eauto.
Qed.

(** For a comparator that is also transitive, the result is sorted. *)
Lemma Array_sort_sorted o (l : list A) :
  StronglySorted (comesBefore comparefn) (Array_sort o comparefn l).
Proof.
  induction l as [|x l IH]; simpl; [constructor|].
  now apply sortInsert_sorted.
Qed.
End ArraySortFacts.

(** ** lodash [orderBy] *)

Section OrderByFacts.
Variable A : Type.
Variable iteratee : A -> jsstring.

Lemma compareAscending_sign (a b : jsstring) :
  (Lodash.compareAscending a b <= 0)%Z <-> JsString.le a b.
Proof.
  unfold Lodash.compareAscending, JsString.le.
  destruct (JsString.compareUnits a b); split; intros; try lia;
    congruence.
Qed.

Lemma compareMultiple_flips :
  SignFlips (@Lodash.compareMultiple A Lodash.asc).
Proof.
  intros x y. unfold Lodash.compareMultiple, Lodash.compareAscending.
  rewrite (compareUnits_antisym (Lodash.criteria x) (Lodash.criteria y)).
  destruct (JsString.compareUnits (Lodash.criteria x) (Lodash.criteria y));
    simpl; lia.
Qed.

Lemma compareMultiple_criteria (x y : Lodash.Decorated A) :
  comesBefore (Lodash.compareMultiple Lodash.asc) x y ->
  JsString.le (Lodash.criteria x) (Lodash.criteria y).
Proof.
  unfold comesBefore, Lodash.compareMultiple, Lodash.compareAscending,
    JsString.le.
  destruct (JsString.compareUnits (Lodash.criteria x) (Lodash.criteria y));
    simpl; intros; try discriminate. lia.
Qed.

Lemma compareMultiple_transitive (x y z : Lodash.Decorated A) :
  comesBefore (Lodash.compareMultiple Lodash.asc) x y ->
  comesBefore (Lodash.compareMultiple Lodash.asc) y z ->
  comesBefore (Lodash.compareMultiple Lodash.asc) x z.
Proof.
  unfold comesBefore, Lodash.compareMultiple, Lodash.compareAscending.
  destruct (JsString.compareUnits (Lodash.criteria x) (Lodash.criteria y))
    eqn:Exy; simpl; try lia;
    destruct (JsString.compareUnits (Lodash.criteria y) (Lodash.criteria z))
      eqn:Eyz; simpl; try lia; intros Hxy Hyz.
  - apply compareUnits_eq in Exy, Eyz. rewrite Exy, Eyz.
    rewrite compareUnits_refl. simpl. lia.
  - apply compareUnits_eq in Exy. rewrite Exy, Eyz. simpl. lia.
  - apply compareUnits_eq in Eyz. rewrite <- Eyz, Exy. simpl. lia.
  - rewrite (compareUnits_lt_trans _ _ _ Exy Eyz). simpl. lia.
Qed.

Lemma decorate_value i (l : list A) :
  map (@Lodash.value A) (Lodash.decorate iteratee i l) = l.
Proof.
  revert i; induction l as [|x l IH]; intros i; simpl; [reflexivity|].
  now rewrite IH.
Qed.

Lemma decorate_criteria i (l : list A) :
  Forall (fun d => Lodash.criteria d = iteratee (Lodash.value d))
    (Lodash.decorate iteratee i l).
Proof.
  revert i; induction l as [|x l IH]; intros i; simpl; constructor; auto.
Qed.

(** [orderBy] returns a rearrangement of the collection. *)
Lemma orderBy_Permutation o (l : list A) order :
  Permutation (Lodash.orderBy o l iteratee order) l.
Proof.
  unfold Lodash.orderBy.
  rewrite <- (decorate_value 0 l) at 2.
  apply Permutation_map, Array_sort_Permutation.
Qed.

(** The engine's call order does not matter to [orderBy]. *)
Lemma orderBy_call_order o o' (l : list A) :
  Lodash.orderBy o l iteratee Lodash.asc
  = Lodash.orderBy o' l iteratee Lodash.asc.
Proof.
  unfold Lodash.orderBy. f_equal.
  apply Array_sort_call_order, compareMultiple_flips.
Qed.

Lemma StronglySorted_map_value (l : list (Lodash.Decorated A)) :
  Forall (fun d => Lodash.criteria d = iteratee (Lodash.value d)) l ->
  StronglySorted (comesBefore (Lodash.compareMultiple Lodash.asc)) l ->
  StronglySorted (fun x y => JsString.le (iteratee x) (iteratee y))
    (map (@Lodash.value A) l).
Proof.
  intros Hcrit Hs. induction Hs as [|d l Hl IH Hd]; simpl; constructor.
  - apply IH. now inversion Hcrit.
  - inversion Hcrit as [|? ? Hc Hcl]; subst.
    rewrite Forall_map. rewrite Forall_forall in *.
    intros e He. rewrite <- Hc, <- (Hcl e He).
    now apply compareMultiple_criteria, Hd.
Qed.

(** In ascending order the criteria of the result never decrease. *)
Lemma orderBy_sorted o (l : list A) :
  StronglySorted (fun x y => JsString.le (iteratee x) (iteratee y))
    (Lodash.orderBy o l iteratee Lodash.asc).
Proof.
  unfold Lodash.orderBy. apply StronglySorted_map_value.
  - eapply Permutation_Forall;
      [symmetry; apply Array_sort_Permutation|apply decorate_criteria].
  - apply Array_sort_sorted.
    + apply compareMultiple_flips.
    + apply compareMultiple_transitive.
Qed.
End OrderByFacts.

(** ** The displayed members *)

Lemma StronglySorted_weaken (A : Type) (P : A -> Prop) (R R' : A -> A -> Prop)
    (l : list A) :
  (forall x y, P x -> P y -> R x y -> R' x y) ->
  Forall P l -> StronglySorted R l -> StronglySorted R' l.
Proof.
  intros HR HP Hs. induction Hs as [|x l Hl IH Hx]; constructor.
  - apply IH. now inversion HP.
  - inversion HP as [|? ? Px Pl]; subst.
    rewrite Forall_forall in *. intros y Hy. apply HR; auto.
Qed.

Section MembersFacts.
Variable o : CallOrder.
Variable toLocaleLowerCase : jsstring -> jsstring.
Variable invitedInSession : list jsstring.
Variable document : Document.t.

(** The displayed members are a rearrangement of [document.members]. *)
Lemma members_Permutation :
  Permutation (members o toLocaleLowerCase invitedInSession document)
    (Document.members document).
Proof. apply orderBy_Permutation. Qed.

(** The keys of the displayed members never decrease. *)
Lemma members_sorted_by_key :
  StronglySorted
    (fun u v =>
       JsString.le (memberKey toLocaleLowerCase invitedInSession u)
         (memberKey toLocaleLowerCase invitedInSession v))
    (members o toLocaleLowerCase invitedInSession document).
Proof. apply orderBy_sorted. Qed.

(** Among the invited users, and among the others, the displayed order is
    the order of the lower-cased names. *)
Lemma members_sorted_within_partition :
  StronglySorted
    (fun u v =>
       JsString.includes invitedInSession (User.id u)
       = JsString.includes invitedInSession (User.id v) ->
       JsString.le (toLocaleLowerCase (User.name u))
         (toLocaleLowerCase (User.name v)))
    (members o toLocaleLowerCase invitedInSession document).
Proof.
  eapply StronglySorted_weaken with (P := fun _ => True);
    [|apply Forall_forall; auto|apply members_sorted_by_key].
  intros u v _ _ Hle Hsame. revert Hle.
  unfold memberKey, sessionPrefix, JsString.le. rewrite Hsame.
  now rewrite compareUnits_app.
Qed.

(** When the lower-cased name of every user who was not invited starts
    with a code unit above the underscore (a Basic Latin letter, or any
    letter of another script), the invited users come first. *)
Lemma members_invited_first :
  (forall u, In u (Document.members document) ->
     JsString.includes invitedInSession (User.id u) = false ->
     exists c rest,
       toLocaleLowerCase (User.name u) = c :: rest /\ (95 < c)%N) ->
  StronglySorted
    (fun u v =>
       JsString.includes invitedInSession (User.id v) = true ->
       JsString.includes invitedInSession (User.id u) = true)
    (members o toLocaleLowerCase invitedInSession document).
Proof.
  intros Hletters.
  eapply StronglySorted_weaken
    with (P := fun u => In u (Document.members document));
    [| |apply members_sorted_by_key].
  - intros u v Hu _ Hle Hv.
    destruct (JsString.includes invitedInSession (User.id u)) eqn:Eu;
      [reflexivity|exfalso].
    destruct (Hletters u Hu Eu) as (c & rest & Hname & Hc).
    revert Hle. unfold memberKey, sessionPrefix, JsString.le.
    rewrite Eu, Hv, Hname. simpl.
    rewrite <- N.compare_gt_iff in Hc. rewrite Hc. congruence.
  - apply Forall_forall. intros u Hu.
    eapply Permutation_in; [apply members_Permutation|exact Hu].
Qed.
End MembersFacts.

(** Names that start with letters: the invited Zoe comes first, and "alice"
    comes before "Bob" although the capital B is the smaller code unit. *)
Example members_of_team :
  members LaterFirst JsString.toLowerBasicLatin [js "u1"] Sample.team
  = [Sample.zoe; Sample.alice; Sample.bob].
Proof. reflexivity. Qed.

Example members_of_team_after_reload :
  members LaterFirst JsString.toLowerBasicLatin [] Sample.team
  = [Sample.alice; Sample.bob; Sample.zoe].
Proof. reflexivity. Qed.

(** C1 (the code departs from the claim).  The document has the members Zoe
    and 007, and Zoe was invited in this session.  Her key is "_zoe", the key
    of 007 is "007", and a digit is below the underscore in code-unit order:
    the displayed list starts with 007, a user who was not invited, in front
    of the invited Zoe. *)
Theorem members_digit_name_precedes_invited
    (o : CallOrder) (toLocaleLowerCase : jsstring -> jsstring) :
  toLocaleLowerCase (js "Zoe") = js "zoe" ->
  toLocaleLowerCase (js "007") = js "007" ->
  JsString.includes [js "u1"] (User.id Sample.zoe) = true
  /\ JsString.includes [js "u1"] (User.id Sample.agent) = false
  /\ members o toLocaleLowerCase [js "u1"] Sample.document
     = [Sample.agent; Sample.zoe]
  /\ ~ StronglySorted
        (fun u v =>
           JsString.includes [js "u1"] (User.id v) = true ->
           JsString.includes [js "u1"] (User.id u) = true)
        (members o toLocaleLowerCase [js "u1"] Sample.document).
Proof.
  intros Hzoe Hagent. split; [reflexivity|]. split; [reflexivity|].
  assert (members o toLocaleLowerCase [js "u1"] Sample.document
          = [Sample.agent; Sample.zoe]) as Hdisplayed.
  { unfold members, Lodash.orderBy, Sample.document. simpl Document.members.
    unfold Lodash.decorate, memberKey. simpl User.name. rewrite Hzoe, Hagent.
    destruct o; reflexivity. }
  split; [exact Hdisplayed|]. rewrite Hdisplayed. intros Hsorted.
  apply StronglySorted_inv in Hsorted. destruct Hsorted as [_ Hfirst].
  apply Forall_inv in Hfirst. specialize (Hfirst eq_refl). discriminate.
Qed.

Lemma members_digit_name_precedes_invited_witness :
  members LaterFirst JsString.toLowerBasicLatin [js "u1"] Sample.document
  = [Sample.agent; Sample.zoe].
Proof.
  apply (members_digit_name_precedes_invited LaterFirst
           JsString.toLowerBasicLatin); reflexivity.
Defined.

(** ** The displayed groups *)

(** The displayed groups are a rearrangement of the document's group
    memberships. *)
Lemma groups_Permutation o localeCompare invitedInSession
    (inDocument : list GroupMembership.t) :
  Permutation (groups o localeCompare invitedInSession inDocument) inDocument.
Proof. apply Array_sort_Permutation. Qed.

(** When nobody was invited in the session the comparator is
    [localeCompare] on the names, and the displayed groups follow the
    collation. *)
Lemma groups_sorted_without_invitations o
    (localeCompare : jsstring -> jsstring -> Z)
    (inDocument : list GroupMembership.t) :
  SignFlips localeCompare ->
  (forall x y z, comesBefore localeCompare x y ->
     comesBefore localeCompare y z -> comesBefore localeCompare x z) ->
  StronglySorted
    (fun a b =>
       localeCompare (Group.name (GroupMembership.group a))
         (Group.name (GroupMembership.group b)) <= 0)%Z
    (groups o localeCompare [] inDocument).
Proof.
  intros Hflips Htrans.
  apply (Array_sort_sorted (comparefn := groupCompare localeCompare [])).
  - intros a b. apply Hflips.
  - intros a b c. apply Htrans.
Qed.

(** Between two invited groups the comparator answers "first argument
    first" both ways round as soon as the underscore sorts before their
    names: it is not a consistent comparator. *)
Lemma groupCompare_inconsistent
    (localeCompare : jsstring -> jsstring -> Z) :
  (localeCompare (js "_alpha") (js "beta") < 0)%Z ->
  (localeCompare (js "_beta") (js "alpha") < 0)%Z ->
  ~ SignFlips (groupCompare localeCompare [js "g1"; js "g2"]).
Proof.
  intros Hab Hba Hflips.
  specialize (Hflips Sample.beta Sample.alpha).
  change (groupCompare localeCompare [js "g1"; js "g2"] Sample.alpha
            Sample.beta)
    with (localeCompare (js "_alpha") (js "beta")) in Hflips.
  change (groupCompare localeCompare [js "g1"; js "g2"] Sample.beta
            Sample.alpha)
    with (localeCompare (js "_beta") (js "alpha")) in Hflips.
  lia.
Qed.

(** C2 (the code departs from the claim).  The groups "alpha" and "beta",
    in any collation that sorts the underscore before letters and "alpha"
    before "beta".
    - Both invited: the comparator sees "_beta" against "alpha", so "beta"
      is displayed before "alpha", whichever argument the engine passes
      first (for one of the two orders of the input array).
    - Only "beta" invited: "alpha", which was not invited, is displayed
      before "beta" (again for one of the two orders of the input array). *)
Theorem groups_not_ordered_as_specified
    (localeCompare : jsstring -> jsstring -> Z) :
  (localeCompare (js "_beta") (js "alpha") < 0)%Z ->
  (localeCompare (js "alpha") (js "beta") < 0)%Z ->
  groups LaterFirst localeCompare [js "g1"; js "g2"]
    [Sample.alpha; Sample.beta] = [Sample.beta; Sample.alpha]
  /\ groups EarlierFirst localeCompare [js "g1"; js "g2"]
       [Sample.beta; Sample.alpha] = [Sample.beta; Sample.alpha]
  /\ groups LaterFirst localeCompare [js "g2"]
       [Sample.beta; Sample.alpha] = [Sample.alpha; Sample.beta]
  /\ groups EarlierFirst localeCompare [js "g2"]
       [Sample.alpha; Sample.beta] = [Sample.alpha; Sample.beta].
Proof.
  intros Hba Hab.
  assert (forall z : Z, (z < 0)%Z -> (z <? 0)%Z = true /\ (0 <? z)%Z = false)
    as Hsign by (intros z Hz; split; [apply Z.ltb_lt|apply Z.ltb_ge]; lia).
  destruct (Hsign _ Hba) as [Hba1 Hba2], (Hsign _ Hab) as [Hab1 Hab2].
  unfold groups, Array_sort; simpl fold_right.
  unfold sortInsert, placedAfter.
  change (groupCompare localeCompare [js "g1"; js "g2"] Sample.beta
            Sample.alpha)
    with (localeCompare (js "_beta") (js "alpha")).
  change (groupCompare localeCompare [js "g2"] Sample.alpha Sample.beta)
    with (localeCompare (js "alpha") (js "beta")).
  rewrite Hba1, Hba2, Hab1, Hab2. repeat split.
Qed.

Lemma groups_not_ordered_as_specified_witness :
  groups LaterFirst Collation.localeCompare [js "g1"; js "g2"]
    [Sample.alpha; Sample.beta] = [Sample.beta; Sample.alpha].
Proof.
  apply (groups_not_ordered_as_specified Collation.localeCompare);
    reflexivity.
Defined.

(** ** The mutation handlers *)

Section HandlerFacts.
Variable t : jsstring -> list (jsstring * Interpolation) -> jsstring.
Variable homePath : jsstring.
Variable document : Document.t.
Variable user : User.t.

(** The promise of the remove-user handler is always fulfilled. *)
Lemma handleRemoveUser_never_rejects (item : User.t) (b : Backend) :
  outcome (handleRemoveUser t homePath document user item b) = Fulfilled tt.
Proof.
  run_handler. destruct (rejects b _); simpl; [reflexivity|].
  destruct (JsString.strictEq _ _); reflexivity.
Qed.

(** The promise of the update-user handler is always fulfilled. *)
Lemma handleUpdateUser_never_rejects (member : User.t)
    (permission : DocumentPermission) (b : Backend) :
  outcome (handleUpdateUser t document member permission b) = Fulfilled tt.
Proof. run_handler. destruct (rejects b _); reflexivity. Qed.

(** A run of the remove-user handler makes no call that sets a
    permission. *)
Lemma handleRemoveUser_no_permission_update (item : User.t) (b : Backend) :
  existsb isPermissionUpdate
    (trace (handleRemoveUser t homePath document user item b)) = false.
Proof.
  run_handler. destruct (rejects b _); simpl; [reflexivity|].
  destruct (JsString.strictEq _ _); reflexivity.
Qed.

(** C3 (the code departs from the claim).  The group handler has no
    [try]/[catch]: when the store call rejects, the handler's own promise
    rejects with the same error, and nothing but the store call has
    happened: no notification is shown. *)
Theorem groupOnChange_failure_escapes (membership : GroupMembership.t)
    (permission : SelectValue) (b : Backend) (e : Error) :
  (forall call, isStoreMutation call = true -> rejects b call = Some e) ->
  outcome (groupOnChange document membership permission b) = Rejected e
  /\ filter isToastError
       (trace (groupOnChange document membership permission b)) = [].
Proof.
  intros Hfail. run_handler.
  destruct permission as [p|]; simpl; rewrite Hfail by reflexivity;
    split; reflexivity.
Qed.

(** C4.  The remove-user handler first deletes the membership of
    (document.id, item.id).  When the delete succeeds it navigates to the
    home path if the removed user is the acting user, and shows the
    success notification otherwise; when the delete fails it shows the
    error notification and nothing else.  Its promise is fulfilled in
    every case. *)
Theorem handleRemoveUser_behaviour (item : User.t) (b : Backend) :
  let call := UserMembershipsDelete (Document.id document) (User.id item) in
  let run := handleRemoveUser t homePath document user item b in
  outcome run = Fulfilled tt
  /\ match rejects b call with
     | None =>
         (User.id item = User.id user
          /\ trace run = [call; HistoryPush homePath])
         \/ (User.id item <> User.id user
             /\ trace run
                = [call;
                   ToastSuccess
                     (t (js "{{ userName }} was removed from the document")
                        [(js "userName", IString (User.name item))])])
     | Some _ =>
         trace run = [call; ToastError (t (js "Could not remove user") [])]
     end.
Proof.
  run_handler. destruct (rejects b _); simpl; [split; reflexivity|].
  destruct (JsString.strictEq (User.id item) (User.id user)) eqn:E; simpl.
  - split; [reflexivity|]. left. split; [|reflexivity].
    now apply strictEq_true.
  - split; [reflexivity|]. right. split; [|reflexivity].
    intros H. apply strictEq_true in H. congruence.
Qed.

(** C5.  The group handler deletes the group membership of
    (document.id, groupId) for the sentinel value and creates it with the
    selected permission for every other value; a selection makes exactly
    one call on the store. *)
Theorem groupOnChange_dispatch (membership : GroupMembership.t)
    (permission : SelectValue) (b : Backend) :
  let run := groupOnChange document membership permission b in
  trace run
  = [match permission with
     | EmptySelectValue =>
         GroupMembershipsDelete (Document.id document)
           (GroupMembership.groupId membership)
     | PermissionValue p =>
         GroupMembershipsCreate (Document.id document)
           (GroupMembership.groupId membership) p
     end]
  /\ List.length (filter isStoreMutation (trace run)) = 1%nat.
Proof. run_handler. destruct permission; split; reflexivity. Qed.

(** C6.  The update-user handler creates the membership of
    (document.id, user.id) with the permission; it then shows the success
    notification, or, when the create fails, the error notification and
    no success notification. *)
Theorem handleUpdateUser_behaviour (member : User.t)
    (permission : DocumentPermission) (b : Backend) :
  let call :=
    UserMembershipsCreate (Document.id document) (User.id member)
      permission in
  let run := handleUpdateUser t document member permission b in
  outcome run = Fulfilled tt
  /\ trace run
     = [call;
        match rejects b call with
        | None =>
            ToastSuccess
              (t (js "Permissions for {{ userName }} updated")
                 [(js "userName", IString (User.name member))])
        | Some _ => ToastError (t (js "Could not update user") [])
        end].
Proof. run_handler. destruct (rejects b _); split; reflexivity. Qed.
End HandlerFacts.

Lemma groupOnChange_failure_escapes_witness :
  outcome
    (groupOnChange Sample.document Sample.alpha (PermissionValue Admin)
       (Sample.failing (mkError (js "Network error"))))
  = Rejected (mkError (js "Network error")).
Proof.
  apply (groupOnChange_failure_escapes Sample.document Sample.alpha
           (PermissionValue Admin)
           (Sample.failing (mkError (js "Network error")))).
  intros call _. reflexivity.
Defined.

(** ** The rendered tree *)

Section RenderFacts.
Variable o : CallOrder.
Variable toLocaleLowerCase : jsstring -> jsstring.
Variable localeCompare : jsstring -> jsstring -> Z.
Variable t : jsstring -> list (jsstring * Interpolation) -> jsstring.
Variable homePath : jsstring.
Variable getMembership : User.t -> Document.t -> option UserMembership.t.
Variable inDocument : jsstring -> list GroupMembership.t.
Variable document : Document.t.
Variable invitedInSession : list jsstring.
Variable user : User.t.
Variable can : Policy.t.

(** The guard on the two flags: the component renders the loading
    indicator, and nothing else, exactly when one of the two flags is set;
    it renders the two lists exactly when neither of them is. *)
Lemma render_guard
    (loadingUserMemberships loadingGroupMemberships : bool) :
  let v :=
    render o toLocaleLowerCase localeCompare t homePath getMembership
      inDocument document invitedInSession user can
      loadingUserMemberships loadingGroupMemberships in
  (v = LoadingIndicator
   <-> loadingUserMemberships = true \/ loadingGroupMemberships = true)
  /\ (showsLists v = true
      <-> loadingUserMemberships = false
          /\ loadingGroupMemberships = false)
  /\ (showsLists v = negb (showsLoadingIndicator v))
  /\ (showsLoadingIndicator v = true -> reachable v = []).
Proof.
  unfold render.
  destruct loadingUserMemberships, loadingGroupMemberships; simpl;
    repeat split; intros; try discriminate; try tauto; auto;
    try (destruct H; discriminate).
Qed.

(** C8.  The options of the permission select are, in this order, Read,
    ReadWrite, Admin and the sentinel, labelled with the translations of
    "View only", "Can edit", "Manage" and "Remove"; every select the
    component renders offers exactly these. *)
Theorem permissions_options :
  map Permission.value (permissions t)
  = [PermissionValue Read; PermissionValue ReadWrite; PermissionValue Admin;
     EmptySelectValue]
  /\ map Permission.label (permissions t)
     = [t (js "View only") []; t (js "Can edit") []; t (js "Manage") [];
        t (js "Remove") []]
  /\ map Permission.label (permissions Sample.translate)
     = [js "View only"; js "Can edit"; js "Manage"; js "Remove"]
  /\ (forall membership select,
        ListItem.actions (groupRow t document can membership) = Some select ->
        InputMemberPermissionSelect.permissions select = permissions t)
  /\ (forall option, In option (permissions t) ->
        In (Permission.value option)
          [PermissionValue Read; PermissionValue ReadWrite;
           PermissionValue Admin; EmptySelectValue]).
Proof.
  repeat split.
  - intros membership select. unfold groupRow. simpl.
    destruct (Policy.manageUsers can); [|discriminate].
    intros H. injection H as <-. reflexivity.
  - intros option Hin. simpl in Hin.
    destruct Hin as [<-|[<-|[<-|[<-|[]]]]]; simpl; auto.
Qed.

Lemma listItemActions_groupRow_unauthorized membership :
  Policy.manageUsers can = false ->
  listItemActions (groupRow t document can membership) = [].
Proof. intros H. unfold listItemActions, groupRow. simpl. now rewrite H. Qed.

Lemma memberListItemActions_memberRow_unauthorized item :
  Policy.manageUsers can = false ->
  Forall (fun action => exists removed,
            action = handleRemoveUser t homePath document user removed)
    (memberListItemActions
       (memberRow t homePath getMembership document user can item)).
Proof.
  intros H. unfold memberListItemActions, memberRow. simpl. rewrite H.
  simpl. constructor; [now exists item|].
  destruct (JsString.strictEq _ _); repeat constructor. now exists item.
Qed.

(** The remove handler is handed to every member row, whatever the
    policy says. *)
Lemma memberRow_onRemove item :
  MemberListItem.onRemove
    (memberRow t homePath getMembership document user can item)
  = handleRemoveUser t homePath document user item.
Proof. reflexivity. Qed.

(** C9.  Without [manageUsers] no group row carries a permission select
    and no member row is given an update handler, so that no handler the
    tree offers makes a call that sets a permission, whatever its
    argument and whatever the backend answers. *)
Theorem unauthorized_no_permission_update
    (loadingUserMemberships loadingGroupMemberships : bool) :
  Policy.manageUsers can = false ->
  let v :=
    render o toLocaleLowerCase localeCompare t homePath getMembership
      inDocument document invitedInSession user can
      loadingUserMemberships loadingGroupMemberships in
  (forall groupRows memberRows, v = Fragment groupRows memberRows ->
     Forall (fun row => ListItem.actions row = None) groupRows
     /\ Forall (fun row => MemberListItem.onUpdate row = None) memberRows)
  /\ Forall
       (fun action => forall b,
          existsb isPermissionUpdate (trace (action b)) = false)
       (reachable v).
Proof.
  intros Hcan. unfold render.
  destruct (loadingUserMemberships || loadingGroupMemberships); simpl.
  - split; [intros ? ? H; discriminate|constructor].
  - split.
    + intros groupRows memberRows H. injection H as <- <-.
      split; apply Forall_map, Forall_forall; intros x _; simpl;
        now rewrite Hcan.
    + apply Forall_app. split.
      * rewrite flat_map_concat_map, map_map.
        apply Forall_concat, Forall_map, Forall_forall. intros m _.
        rewrite listItemActions_groupRow_unauthorized by assumption.
        constructor.
      * rewrite flat_map_concat_map, map_map.
        apply Forall_concat, Forall_map, Forall_forall. intros item _.
        eapply Forall_impl;
          [|apply memberListItemActions_memberRow_unauthorized; assumption].
        intros action [removed ->] b.
        apply handleRemoveUser_no_permission_update.
Qed.

(** With [manageUsers] every group row carries the select and every
    member row the update handler. *)
Lemma authorized_controls (membership : GroupMembership.t) (item : User.t) :
  Policy.manageUsers can = true ->
  ListItem.actions (groupRow t document can membership) <> None
  /\ MemberListItem.onUpdate
       (memberRow t homePath getMembership document user can item)
     <> None.
Proof.
  intros H. unfold groupRow, memberRow. simpl. rewrite H.
  split; discriminate.
Qed.
End RenderFacts.

Lemma unauthorized_no_permission_update_witness :
  Forall
    (fun action => forall b,
       existsb isPermissionUpdate (trace (action b)) = false)
    (reachable
       (render LaterFirst JsString.toLowerBasicLatin Collation.localeCompare
          Sample.translate (js "/home") (fun _ _ => None)
          (fun _ => [Sample.alpha; Sample.beta]) Sample.document [js "u1"]
          Sample.zoe (Policy.mk false true) false false)).
Proof.
  apply (unauthorized_no_permission_update LaterFirst
           JsString.toLowerBasicLatin Collation.localeCompare
           Sample.translate (js "/home") (fun _ _ => None)
           (fun _ => [Sample.alpha; Sample.beta]) Sample.document [js "u1"]
           Sample.zoe (Policy.mk false true) false false).
  reflexivity.
Defined.

(** ** The mount effect *)

Lemma fetchDocumentMembershipsPage_bounded stored id limit :
  (List.length (fetchDocumentMembershipsPage stored id limit)
   <= N.to_nat limit)%nat.
Proof. unfold fetchDocumentMembershipsPage. apply firstn_le_length. Qed.

(** C10.  On mount the component makes one request for user memberships,
    for the document and with the default limit, and one [fetchAll] for
    group memberships, which carries no limit.  Whatever the server holds,
    the page it answers with has at most [defaultLimit] memberships, so no
    more are loaded on mount. *)
Theorem mount_fetches (defaultLimit : N) (document : Document.t)
    (b : Backend) (stored : list UserMembership.t) :
  let run := mountEffect defaultLimit document b in
  trace run
  = [FetchDocumentMemberships (Document.id document) defaultLimit;
     GroupMembershipsFetchAll (Document.id document)]
  /\ outcome run = Fulfilled tt
  /\ (List.length (loadedUserMemberships stored (trace run))
      <= N.to_nat defaultLimit)%nat.
Proof.
  unfold mountEffect, void, bind, fetchUserMemberships, fetchGroupMemberships,
    await, trace, outcome, documentId.
  simpl. repeat split.
  rewrite app_nil_r. apply fetchDocumentMembershipsPage_bounded.
Qed.

(** ** More on [orderBy]: ties and repeated sorting *)

(** An array that is in the order the comparator asks for is left as it
    is. *)
Lemma Array_sort_of_sorted (A : Type) o (comparefn : A -> A -> Z)
    (l : list A) :
  SignFlips comparefn ->
  StronglySorted (comesBefore comparefn) l ->
  Array_sort o comparefn l = l.
Proof.
  intros Hflips. induction 1 as [|x l Hl IH Hx]; [reflexivity|].
  change (Array_sort o comparefn (x :: l))
    with (sortInsert o comparefn x (Array_sort o comparefn l)).
  rewrite IH. destruct l as [|y l']; [reflexivity|].
  simpl. rewrite placedAfter_flips by assumption.
  apply Forall_inv in Hx. unfold comesBefore in Hx.
  destruct (Z.ltb_spec 0 (comparefn x y)); [lia|reflexivity].
Qed.

Section OrderByStability.
Variable A : Type.
Variable iteratee : A -> jsstring.

Lemma compareMultiple_placedAfter o (x y : Lodash.Decorated A) :
  placedAfter o (Lodash.compareMultiple Lodash.asc) x y = true ->
  Lodash.criteria x <> Lodash.criteria y
  \/ (Lodash.index y < Lodash.index x)%Z.
Proof.
  rewrite placedAfter_flips by apply compareMultiple_flips.
  unfold Lodash.compareMultiple, Lodash.compareAscending.
  destruct (JsString.compareUnits (Lodash.criteria x) (Lodash.criteria y))
    eqn:E; simpl; intros H; apply Z.ltb_lt in H.
  - right. lia.
  - lia.
  - left. intros Heq. rewrite Heq, compareUnits_refl in E. discriminate.
Qed.

Lemma decorate_index i (l : list A) :
  Forall (fun d => (i <= Lodash.index d)%Z) (Lodash.decorate iteratee i l).
Proof.
  revert i; induction l as [|x l IH]; intros i; simpl; constructor.
  - simpl. lia.
  - eapply Forall_impl; [|apply IH]. simpl. intros d Hd. lia.
Qed.

Lemma sortInsert_filter o (k : jsstring) (x : Lodash.Decorated A)
    (l : list (Lodash.Decorated A)) :
  Forall (fun y => (Lodash.index x < Lodash.index y)%Z) l ->
  filter (fun d => JsString.strictEq (Lodash.criteria d) k)
    (sortInsert o (Lodash.compareMultiple Lodash.asc) x l)
  = filter (fun d => JsString.strictEq (Lodash.criteria d) k) (x :: l).
Proof.
  induction 1 as [|y l Hy Hl IH]; [reflexivity|].
  simpl sortInsert.
  destruct (placedAfter o (Lodash.compareMultiple Lodash.asc) x y) eqn:E;
    [|reflexivity].
  apply compareMultiple_placedAfter in E. destruct E as [Hne|Hidx]; [|lia].
  simpl filter at 1. rewrite IH. simpl.
  destruct (JsString.strictEq (Lodash.criteria x) k) eqn:Ex,
    (JsString.strictEq (Lodash.criteria y) k) eqn:Ey; try reflexivity.
  apply strictEq_true in Ex, Ey. congruence.
Qed.

Lemma Array_sort_decorate_filter o (k : jsstring) i (l : list A) :
  filter (fun d => JsString.strictEq (Lodash.criteria d) k)
    (Array_sort o (Lodash.compareMultiple Lodash.asc)
       (Lodash.decorate iteratee i l))
  = filter (fun d => JsString.strictEq (Lodash.criteria d) k)
      (Lodash.decorate iteratee i l).
Proof.
  revert i; induction l as [|x l IH]; intros i; [reflexivity|].
  simpl Lodash.decorate. simpl Array_sort. rewrite sortInsert_filter.
  - simpl. now rewrite IH.
  - eapply Permutation_Forall; [symmetry; apply Array_sort_Permutation|].
    eapply Forall_impl; [|apply decorate_index]. simpl. intros d Hd. lia.
Qed.

Lemma filter_map_value (k : jsstring) (l : list (Lodash.Decorated A)) :
  Forall (fun d => Lodash.criteria d = iteratee (Lodash.value d)) l ->
  filter (fun x => JsString.strictEq (iteratee x) k)
    (map (@Lodash.value A) l)
  = map (@Lodash.value A)
      (filter (fun d => JsString.strictEq (Lodash.criteria d) k) l).
Proof.
  induction 1 as [|d l Hd Hl IH]; [reflexivity|].
  simpl. rewrite <- Hd, IH.
  destruct (JsString.strictEq (Lodash.criteria d) k); reflexivity.
Qed.

(** Elements with the same criterion keep the order they had in the
    collection. *)
Lemma orderBy_stable o (k : jsstring) (l : list A) :
  filter (fun x => JsString.strictEq (iteratee x) k)
    (Lodash.orderBy o l iteratee Lodash.asc)
  = filter (fun x => JsString.strictEq (iteratee x) k) l.
Proof.
  unfold Lodash.orderBy. rewrite filter_map_value.
  - rewrite Array_sort_decorate_filter, <- filter_map_value.
    + now rewrite decorate_value.
    + apply decorate_criteria.
  - eapply Permutation_Forall;
      [symmetry; apply Array_sort_Permutation|apply decorate_criteria].
Qed.

Lemma decorate_members i (l : list A) :
  Forall (fun d => In (Lodash.value d) l
                   /\ Lodash.criteria d = iteratee (Lodash.value d)
                   /\ (i <= Lodash.index d)%Z)
    (Lodash.decorate iteratee i l).
Proof.
  revert i; induction l as [|x l IH]; intros i; simpl; constructor.
  - simpl. repeat split; auto. lia.
  - eapply Forall_impl; [|apply IH]. simpl. intros d (Hin & Hc & Hi).
    repeat split; auto. lia.
Qed.

Lemma decorate_sorted i (l : list A) :
  StronglySorted (fun x y => JsString.le (iteratee x) (iteratee y)) l ->
  StronglySorted (comesBefore (Lodash.compareMultiple Lodash.asc))
    (Lodash.decorate iteratee i l).
Proof.
  intros Hs. revert i. induction Hs as [|x l Hl IH Hx]; intros i; simpl;
    constructor; [apply IH|].
  rewrite Forall_forall in Hx.
  eapply Forall_impl; [|apply (decorate_members (i + 1) l)].
  simpl. intros d (Hin & Hc & Hi). specialize (Hx _ Hin).
  unfold comesBefore, Lodash.compareMultiple, Lodash.compareAscending.
  simpl. rewrite Hc. unfold JsString.le in Hx.
  destruct (JsString.compareUnits (iteratee x) (iteratee (Lodash.value d)));
    simpl; try lia. congruence.
Qed.

(** A collection whose criteria never decrease is returned as it is. *)
Lemma orderBy_of_sorted o (l : list A) :
  StronglySorted (fun x y => JsString.le (iteratee x) (iteratee y)) l ->
  Lodash.orderBy o l iteratee Lodash.asc = l.
Proof.
  intros Hs. unfold Lodash.orderBy.
  rewrite Array_sort_of_sorted.
  - apply decorate_value.
  - apply compareMultiple_flips.
  - now apply decorate_sorted.
Qed.
End OrderByStability.

(** ** More on the displayed members *)

(** The displayed list shows the same users as [document.members]: as many
    rows, and every user as often as the document has them. *)
Theorem displayed_members_same_users o toLocaleLowerCase invitedInSession
    (document : Document.t) :
  let displayed := members o toLocaleLowerCase invitedInSession document in
  Permutation displayed (Document.members document)
  /\ List.length displayed = List.length (Document.members document)
  /\ (forall u, In u displayed <-> In u (Document.members document)).
Proof.
  pose proof (members_Permutation o toLocaleLowerCase invitedInSession
                document) as Hperm.
  simpl. split; [exact Hperm|]. split.
  - now apply Permutation_length.
  - intros u. split; apply Permutation_in; [|symmetry]; exact Hperm.
Qed.

(** The displayed members do not depend on the order in which the engine
    hands elements to the comparator. *)
Theorem members_call_order o o' toLocaleLowerCase invitedInSession
    (document : Document.t) :
  members o toLocaleLowerCase invitedInSession document
  = members o' toLocaleLowerCase invitedInSession document.
Proof. apply orderBy_call_order. Qed.

(** Users with the same key (the same lower-cased name and the same
    invitation status) are displayed in the order of [document.members]. *)
Theorem members_stable o toLocaleLowerCase invitedInSession
    (document : Document.t) (k : jsstring) :
  filter
    (fun u =>
       JsString.strictEq (memberKey toLocaleLowerCase invitedInSession u) k)
    (members o toLocaleLowerCase invitedInSession document)
  = filter
      (fun u =>
         JsString.strictEq (memberKey toLocaleLowerCase invitedInSession u) k)
      (Document.members document).
Proof. apply orderBy_stable. Qed.

(** Ordering the displayed members once more changes nothing. *)
Theorem members_idempotent o toLocaleLowerCase invitedInSession
    (document : Document.t) :
  members o toLocaleLowerCase invitedInSession
    (Document.mk (Document.id document)
       (members o toLocaleLowerCase invitedInSession document))
  = members o toLocaleLowerCase invitedInSession document.
Proof.
  unfold members at 1. simpl Document.members.
  apply orderBy_of_sorted, members_sorted_by_key.
Qed.

(** When none of the document's members was invited in the session (after
    a reload, say), the displayed members are in the order of their
    lower-cased names. *)
Theorem members_sorted_by_name_when_none_invited o toLocaleLowerCase
    invitedInSession (document : Document.t) :
  (forall u, In u (Document.members document) ->
     JsString.includes invitedInSession (User.id u) = false) ->
  StronglySorted
    (fun u v =>
       JsString.le (toLocaleLowerCase (User.name u))
         (toLocaleLowerCase (User.name v)))
    (members o toLocaleLowerCase invitedInSession document).
Proof.
  intros Hnone.
  eapply StronglySorted_weaken
    with (P := fun u => In u (Document.members document));
    [| |apply members_sorted_by_key].
  - intros u v Hu Hv. unfold memberKey, sessionPrefix.
    rewrite (Hnone u Hu), (Hnone v Hv). simpl. auto.
  - apply Forall_forall. intros u Hu.
    eapply Permutation_in; [apply members_Permutation|exact Hu].
Qed.

Lemma members_sorted_by_name_when_none_invited_witness :
  StronglySorted
    (fun u v =>
       JsString.le (JsString.toLowerBasicLatin (User.name u))
         (JsString.toLowerBasicLatin (User.name v)))
    (members LaterFirst JsString.toLowerBasicLatin [js "u9"] Sample.team).
Proof.
  apply (members_sorted_by_name_when_none_invited LaterFirst
           JsString.toLowerBasicLatin [js "u9"] Sample.team).
  intros u [<-|[<-|[<-|[]]]]; reflexivity.
Defined.

Lemma members_invited_first_witness :
  StronglySorted
    (fun u v =>
       JsString.includes [js "u1"] (User.id v) = true ->
       JsString.includes [js "u1"] (User.id u) = true)
    (members LaterFirst JsString.toLowerBasicLatin [js "u1"] Sample.team).
Proof.
  apply (members_invited_first LaterFirst JsString.toLowerBasicLatin
           [js "u1"] Sample.team).
  intros u [<-|[<-|[<-|[]]]]; try discriminate; intros _.
  - exists 98%N, (js "ob"). split; reflexivity.
  - exists 97%N, (js "lice"). split; reflexivity.
Defined.

(** ** More on the displayed groups *)

Lemma sortInsert_ext (A : Type) o (f g : A -> A -> Z) (x : A) (l : list A) :
  (forall y, In y l -> f x y = g x y /\ f y x = g y x) ->
  sortInsert o f x l = sortInsert o g x l.
Proof.
  induction l as [|y l IH]; intros Hfg; [reflexivity|].
  simpl. destruct (Hfg y (or_introl eq_refl)) as [Hxy Hyx].
  assert (placedAfter o f x y = placedAfter o g x y) as ->
    by (destruct o; simpl; congruence).
  rewrite IH by (intros z Hz; apply Hfg; now right). reflexivity.
Qed.

(** [sort] only looks at the comparator on the elements of the array. *)
Lemma Array_sort_ext (A : Type) o (f g : A -> A -> Z) (l : list A) :
  (forall x y, In x l -> In y l -> f x y = g x y) ->
  Array_sort o f l = Array_sort o g l.
Proof.
  induction l as [|x l IH]; intros Hfg; [reflexivity|].
  change (sortInsert o f x (Array_sort o f l)
          = sortInsert o g x (Array_sort o g l)).
  rewrite IH by (intros; apply Hfg; now right).
  apply sortInsert_ext. intros y Hy.
  assert (In y l) as Hyl
    by (eapply Permutation_in; [apply Array_sort_Permutation|exact Hy]).
  split; apply Hfg; simpl; auto.
Qed.

Lemma collation_flips : SignFlips Collation.localeCompare.
Proof.
  intros x y. unfold Collation.localeCompare.
  rewrite (compareUnits_antisym (map Collation.primary x)
             (map Collation.primary y)).
  rewrite (compareUnits_antisym (map Collation.tertiary x)
             (map Collation.tertiary y)).
  destruct (JsString.compareUnits (map Collation.primary x)
              (map Collation.primary y));
    destruct (JsString.compareUnits (map Collation.tertiary x)
                (map Collation.tertiary y)); simpl; lia.
Qed.

Lemma collation_transitive (x y z : jsstring) :
  comesBefore Collation.localeCompare x y ->
  comesBefore Collation.localeCompare y z ->
  comesBefore Collation.localeCompare x z.
Proof.
  unfold comesBefore, Collation.localeCompare.
  destruct (JsString.compareUnits (map Collation.primary x)
              (map Collation.primary y)) eqn:Pxy; try lia;
    destruct (JsString.compareUnits (map Collation.primary y)
                (map Collation.primary z)) eqn:Pyz; try lia.
  - apply compareUnits_eq in Pxy. rewrite Pxy, Pyz.
    destruct (JsString.compareUnits (map Collation.tertiary x)
                (map Collation.tertiary y)) eqn:Txy; try lia;
      destruct (JsString.compareUnits (map Collation.tertiary y)
                  (map Collation.tertiary z)) eqn:Tyz; try lia; intros _ _.
    + apply compareUnits_eq in Txy. rewrite Txy, Tyz. lia.
    + apply compareUnits_eq in Txy. rewrite Txy, Tyz. lia.
    + apply compareUnits_eq in Tyz. rewrite <- Tyz, Txy. lia.
    + rewrite (compareUnits_lt_trans _ _ _ Txy Tyz). lia.
  - apply compareUnits_eq in Pxy. rewrite Pxy, Pyz. lia.
  - apply compareUnits_eq in Pyz. rewrite <- Pyz, Pxy. lia.
  - rewrite (compareUnits_lt_trans _ _ _ Pxy Pyz). lia.
Qed.

(** The displayed groups show the same memberships as the store returned
    for the document, whatever the comparator answers. *)
Theorem displayed_groups_same_memberships o localeCompare invitedInSession
    (inDocument : list GroupMembership.t) :
  let displayed := groups o localeCompare invitedInSession inDocument in
  Permutation displayed inDocument
  /\ List.length displayed = List.length inDocument
  /\ (forall m, In m displayed <-> In m inDocument).
Proof.
  pose proof (groups_Permutation o localeCompare invitedInSession inDocument)
    as Hperm.
  simpl. split; [exact Hperm|]. split.
  - now apply Permutation_length.
  - intros m. split; apply Permutation_in; [|symmetry]; exact Hperm.
Qed.

(** When none of the document's groups was invited in the session (the
    list may still hold the ids of invited users), the displayed groups are
    in the order of the collation of their names. *)
Theorem groups_sorted_when_no_group_invited o
    (localeCompare : jsstring -> jsstring -> Z) invitedInSession
    (inDocument : list GroupMembership.t) :
  SignFlips localeCompare ->
  (forall x y z, comesBefore localeCompare x y ->
     comesBefore localeCompare y z -> comesBefore localeCompare x z) ->
  (forall m, In m inDocument ->
     JsString.includes invitedInSession
       (Group.id (GroupMembership.group m)) = false) ->
  StronglySorted
    (fun a b =>
       localeCompare (Group.name (GroupMembership.group a))
         (Group.name (GroupMembership.group b)) <= 0)%Z
    (groups o localeCompare invitedInSession inDocument).
Proof.
  intros Hflips Htrans Hnone. unfold groups.
  rewrite (Array_sort_ext o (groupCompare localeCompare invitedInSession)
             (groupCompare localeCompare [])).
  - now apply groups_sorted_without_invitations.
  - intros a b Ha _. unfold groupCompare, sessionPrefix.
    now rewrite (Hnone a Ha).
Qed.

Lemma groups_sorted_when_no_group_invited_witness :
  groups LaterFirst Collation.localeCompare [js "u1"]
    [Sample.beta; Sample.alpha]
  = [Sample.alpha; Sample.beta]
  /\ StronglySorted
       (fun a b =>
          Collation.localeCompare (Group.name (GroupMembership.group a))
            (Group.name (GroupMembership.group b)) <= 0)%Z
       (groups LaterFirst Collation.localeCompare [js "u1"]
          [Sample.beta; Sample.alpha]).
Proof.
  split; [reflexivity|].
  apply (@groups_sorted_when_no_group_invited LaterFirst
           Collation.localeCompare [js "u1"] [Sample.beta; Sample.alpha]).
  - exact collation_flips.
  - exact collation_transitive.
  - intros m [<-|[<-|[]]]; reflexivity.
Defined.

(** ** More on the handlers *)

(** Whatever the backend answers, a run of a user handler makes one call on
    the store and no second attempt: the delete for the remove handler, the
    create for the update handler. *)
Theorem user_handlers_single_store_call
    (t : jsstring -> list (jsstring * Interpolation) -> jsstring)
    (homePath : jsstring) (document : Document.t) (user item : User.t)
    (permission : DocumentPermission) (b : Backend) :
  filter isStoreMutation
    (trace (handleRemoveUser t homePath document user item b))
  = [UserMembershipsDelete (Document.id document) (User.id item)]
  /\ filter isStoreMutation
       (trace (handleUpdateUser t document item permission b))
     = [UserMembershipsCreate (Document.id document) (User.id item)
          permission].
Proof.
  split; run_handler; destruct (rejects b _); simpl; try reflexivity.
  destruct (JsString.strictEq _ _); reflexivity.
Qed.

(** ** More on the rendered tree *)

Section TreeFacts.
Variable o : CallOrder.
Variable toLocaleLowerCase : jsstring -> jsstring.
Variable localeCompare : jsstring -> jsstring -> Z.
Variable t : jsstring -> list (jsstring * Interpolation) -> jsstring.
Variable homePath : jsstring.
Variable getMembership : User.t -> Document.t -> option UserMembership.t.
Variable inDocument : jsstring -> list GroupMembership.t.
Variable document : Document.t.
Variable invitedInSession : list jsstring.
Variable user : User.t.
Variable can : Policy.t.

Lemma memberRowsOf_render (loadingUserMemberships loadingGroupMemberships : bool) :
  memberRowsOf
    (render o toLocaleLowerCase localeCompare t homePath getMembership
       inDocument document invitedInSession user can
       loadingUserMemberships loadingGroupMemberships)
  = if loadingUserMemberships || loadingGroupMemberships then []
    else map (memberRow t homePath getMembership document user can)
           (members o toLocaleLowerCase invitedInSession document).
Proof.
  unfold render.
  destruct (loadingUserMemberships || loadingGroupMemberships); reflexivity.
Qed.

Lemma groupRowsOf_render (loadingUserMemberships loadingGroupMemberships : bool) :
  groupRowsOf
    (render o toLocaleLowerCase localeCompare t homePath getMembership
       inDocument document invitedInSession user can
       loadingUserMemberships loadingGroupMemberships)
  = if loadingUserMemberships || loadingGroupMemberships then []
    else map (groupRow t document can)
           (groups o localeCompare invitedInSession
              (inDocument (Document.id document))).
Proof.
  unfold render.
  destruct (loadingUserMemberships || loadingGroupMemberships); reflexivity.
Qed.

Lemma reachable_rows (v : View) :
  reachable v
  = flat_map listItemActions (groupRowsOf v)
      ++ flat_map memberListItemActions (memberRowsOf v).
Proof. destruct v; reflexivity. Qed.

(** Every handler a member row is given is one of the two user handlers. *)
Lemma memberRow_actions (item : User.t) :
  Forall
    (fun action =>
       action = handleRemoveUser t homePath document user item
       \/ exists permission,
            action = handleUpdateUser t document item permission)
    (memberListItemActions
       (memberRow t homePath getMembership document user can item)).
Proof.
  unfold memberListItemActions, memberRow. simpl.
  constructor; [now left|]. apply Forall_app. split.
  - destruct (Policy.manageUsers can); [|constructor].
    repeat (constructor; [right; eexists; reflexivity|]). constructor.
  - destruct (JsString.strictEq _ _); constructor; [now left|constructor].
Qed.

(** Every handler a group row is given is the group handler. *)
Lemma groupRow_actions (membership : GroupMembership.t) :
  Forall
    (fun action => exists permission,
       action = groupOnChange document membership permission)
    (listItemActions (groupRow t document can membership)).
Proof.
  unfold listItemActions, groupRow. simpl.
  destruct (Policy.manageUsers can); [|constructor].
  repeat (constructor; [eexists; reflexivity|]). constructor.
Qed.

(** The promise of every handler handed to a member row ([onRemove],
    [onUpdate], [onLeave]) is fulfilled, whatever the backend answers. *)
Theorem member_row_handlers_never_reject
    (loadingUserMemberships loadingGroupMemberships : bool) :
  Forall
    (fun row =>
       Forall (fun action => forall b, outcome (action b) = Fulfilled tt)
         (memberListItemActions row))
    (memberRowsOf
       (render o toLocaleLowerCase localeCompare t homePath getMembership
          inDocument document invitedInSession user can
          loadingUserMemberships loadingGroupMemberships)).
Proof.
  rewrite memberRowsOf_render.
  destruct (loadingUserMemberships || loadingGroupMemberships);
    [constructor|].
  apply Forall_map, Forall_forall. intros item _.
  eapply Forall_impl; [|apply memberRow_actions].
  intros action [->|[p ->]] b.
  - apply handleRemoveUser_never_rejects.
  - apply handleUpdateUser_never_rejects.
Qed.

(** A run of any handler the tree offers makes exactly one call on the
    stores and shows at most one notification. *)
Theorem offered_handlers_one_call
    (loadingUserMemberships loadingGroupMemberships : bool) :
  Forall
    (fun action => forall b,
       List.length (filter isStoreMutation (trace (action b))) = 1%nat
       /\ (List.length (filter isNotification (trace (action b))) <= 1)%nat)
    (reachable
       (render o toLocaleLowerCase localeCompare t homePath getMembership
          inDocument document invitedInSession user can
          loadingUserMemberships loadingGroupMemberships)).
Proof.
  rewrite reachable_rows, memberRowsOf_render, groupRowsOf_render.
  destruct (loadingUserMemberships || loadingGroupMemberships);
    [constructor|].
  apply Forall_app. split.
  - rewrite flat_map_concat_map, map_map.
    apply Forall_concat, Forall_map, Forall_forall. intros m _.
    eapply Forall_impl; [|apply groupRow_actions].
    intros action [v ->] b. run_handler. destruct v; simpl; auto.
  - rewrite flat_map_concat_map, map_map.
    apply Forall_concat, Forall_map, Forall_forall. intros item _.
    eapply Forall_impl; [|apply memberRow_actions].
    intros action [->|[p ->]] b; run_handler;
      destruct (rejects b _); simpl; auto.
    destruct (JsString.strictEq _ _); simpl; auto.
Qed.

(** [onLeave] is handed to the rows of the acting user and to no other row,
    and where it is handed over, a successful run removes the acting user
    and navigates to the home path, without a notification. *)
Theorem onLeave_is_self_removal
    (loadingUserMemberships loadingGroupMemberships : bool) :
  Forall
    (fun row =>
       if JsString.strictEq (User.id (MemberListItem.user row)) (User.id user)
       then
         exists leave,
           MemberListItem.onLeave row = Some leave
           /\ forall b,
                rejects b
                  (UserMembershipsDelete (Document.id document)
                     (User.id user)) = None ->
                trace (leave b)
                = [UserMembershipsDelete (Document.id document)
                     (User.id user);
                   HistoryPush homePath]
       else MemberListItem.onLeave row = None)
    (memberRowsOf
       (render o toLocaleLowerCase localeCompare t homePath getMembership
          inDocument document invitedInSession user can
          loadingUserMemberships loadingGroupMemberships)).
Proof.
  rewrite memberRowsOf_render.
  destruct (loadingUserMemberships || loadingGroupMemberships);
    [constructor|].
  apply Forall_map, Forall_forall. intros item _.
  unfold memberRow. cbn [MemberListItem.user MemberListItem.onLeave].
  destruct (JsString.strictEq (User.id item) (User.id user)) eqn:E;
    [|reflexivity].
  eexists. split; [reflexivity|]. intros b Hb.
  apply strictEq_true in E as Hid.
  unfold handleRemoveUser, tryCatch, bind, await, emit, trace.
  rewrite E, Hid, Hb. reflexivity.
Qed.

(** Once both requests have settled, the member rows show the users of
    [document.members], one row for each, and the group rows carry the ids
    of the document's group memberships, one row for each. *)
Theorem rows_match_data :
  let v :=
    render o toLocaleLowerCase localeCompare t homePath getMembership
      inDocument document invitedInSession user can false false in
  Permutation (map MemberListItem.user (memberRowsOf v))
    (Document.members document)
  /\ map MemberListItem.key (memberRowsOf v)
     = map User.id (map MemberListItem.user (memberRowsOf v))
  /\ Permutation (map ListItem.key (groupRowsOf v))
       (map GroupMembership.id (inDocument (Document.id document))).
Proof.
  cbv zeta. rewrite memberRowsOf_render, groupRowsOf_render.
  cbn [orb]. rewrite !map_map. cbn [MemberListItem.user memberRow
    MemberListItem.key ListItem.key groupRow].
  split; [|split].
  - rewrite map_id. apply members_Permutation.
  - reflexivity.
  - apply Permutation_map, groups_Permutation.
Qed.

(** Whatever the policy grants, the tree offers the remove handler of
    every member of the document once both requests have settled. *)
Theorem remove_offered_whatever_policy :
  Forall
    (fun item =>
       In (handleRemoveUser t homePath document user item)
         (reachable
            (render o toLocaleLowerCase localeCompare t homePath
               getMembership inDocument document invitedInSession user can
               false false)))
    (Document.members document).
Proof.
  apply Forall_forall. intros item Hitem.
  rewrite reachable_rows, memberRowsOf_render. cbn [orb].
  apply in_or_app. right. apply in_flat_map.
  exists (memberRow t homePath getMembership document user can item). split.
  - apply in_map.
    eapply Permutation_in; [symmetry; apply members_Permutation|exact Hitem].
  - left. reflexivity.
Qed.

(** Every group row belongs to a group membership of the document: it is
    keyed by the membership's id and titled with the group's name, and the
    select it carries, if any, shows the permission of that membership as
    its value, which is one of the options it offers, runs the group
    handler for that membership, and is disabled exactly when the policy
    does not grant [update]. *)
Theorem select_shows_membership_permission
    (loadingUserMemberships loadingGroupMemberships : bool) :
  Forall
    (fun row =>
       exists membership,
         In membership (inDocument (Document.id document))
         /\ ListItem.key row = GroupMembership.id membership
         /\ ListItem.title row
            = Group.name (GroupMembership.group membership)
         /\ forall select,
              ListItem.actions row = Some select ->
              InputMemberPermissionSelect.value select
              = GroupMembership.permission membership
              /\ In (PermissionValue
                       (GroupMembership.permission membership))
                   (map Permission.value
                      (InputMemberPermissionSelect.permissions select))
              /\ InputMemberPermissionSelect.onChange select
                 = groupOnChange document membership
              /\ InputMemberPermissionSelect.disabled select
                 = negb (Policy.update can))
    (groupRowsOf
       (render o toLocaleLowerCase localeCompare t homePath getMembership
          inDocument document invitedInSession user can
          loadingUserMemberships loadingGroupMemberships)).
Proof.
  rewrite groupRowsOf_render.
  destruct (loadingUserMemberships || loadingGroupMemberships);
    [constructor|].
  apply Forall_map, Forall_forall. intros m Hm. exists m.
  split; [|split; [reflexivity|split; [reflexivity|]]].
  - eapply Permutation_in; [apply groups_Permutation|exact Hm].
  - intros select. unfold groupRow. cbn [ListItem.actions].
    destruct (Policy.manageUsers can); [|discriminate].
    intros H. injection H as <-. simpl.
    repeat split. destruct (GroupMembership.permission m); auto.
Qed.

(** When the members of the document have distinct ids and its group
    memberships have distinct ids, no two member rows share a key and no
    two group rows share a key. *)
Theorem row_keys_unique
    (loadingUserMemberships loadingGroupMemberships : bool) :
  NoDup (map User.id (Document.members document)) ->
  NoDup (map GroupMembership.id (inDocument (Document.id document))) ->
  let v :=
    render o toLocaleLowerCase localeCompare t homePath getMembership
      inDocument document invitedInSession user can
      loadingUserMemberships loadingGroupMemberships in
  NoDup (map MemberListItem.key (memberRowsOf v))
  /\ NoDup (map ListItem.key (groupRowsOf v)).
Proof.
  intros Husers Hgroups. cbv zeta.
  rewrite memberRowsOf_render, groupRowsOf_render.
  destruct (loadingUserMemberships || loadingGroupMemberships);
    [split; constructor|].
  rewrite !map_map.
  cbn [MemberListItem.key memberRow ListItem.key groupRow]. split.
  - eapply Permutation_NoDup; [|exact Husers].
    symmetry. apply Permutation_map, members_Permutation.
  - eapply Permutation_NoDup; [|exact Hgroups].
    symmetry. apply Permutation_map, groups_Permutation.
Qed.
End TreeFacts.

Lemma row_keys_unique_witness :
  NoDup
    (map MemberListItem.key
       (memberRowsOf
          (render LaterFirst JsString.toLowerBasicLatin
             Collation.localeCompare Sample.translate (js "/home")
             (fun _ _ => None) (fun _ => [Sample.alpha; Sample.beta])
             Sample.team [js "u1"] Sample.zoe (Policy.mk true true)
             false false))).
Proof.
  apply (@row_keys_unique LaterFirst JsString.toLowerBasicLatin
           Collation.localeCompare Sample.translate (js "/home")
           (fun _ _ => None) (fun _ => [Sample.alpha; Sample.beta])
           Sample.team [js "u1"] Sample.zoe (Policy.mk true true)
           false false).
  - repeat constructor; simpl; intuition discriminate.
  - repeat constructor; simpl; intuition discriminate.
Defined.

(** ** The requests and the loading indicator *)

Section LifecycleFacts.
Variable o : CallOrder.
Variable toLocaleLowerCase : jsstring -> jsstring.
Variable localeCompare : jsstring -> jsstring -> Z.
Variable t : jsstring -> list (jsstring * Interpolation) -> jsstring.
Variable homePath : jsstring.
Variable defaultLimit : N.
Variable getMembership : User.t -> Document.t -> option UserMembership.t.
Variable inDocument : jsstring -> list GroupMembership.t.
Variable document : Document.t.
Variable invitedInSession : list jsstring.
Variable user : User.t.
Variable can : Policy.t.
Variable b : Backend.

(** The mount effect puts both requests in flight at once. *)
Lemma effect_starts_both_requests :
  advance defaultLimit document b firstRender EffectRuns
  = Some (Lifecycle.mk InFlight InFlight).
Proof. reflexivity. Qed.





(** Both requests can settle, in either order and whatever the backend
    answers. *)
Lemma both_requests_settle :
  runLifecycle defaultLimit document b
    [EffectRuns; UserMembershipsSettle; GroupMembershipsSettle] firstRender
  = runLifecycle defaultLimit document b
      [EffectRuns; GroupMembershipsSettle; UserMembershipsSettle] firstRender
  /\ exists s,
       runLifecycle defaultLimit document b
         [EffectRuns; UserMembershipsSettle; GroupMembershipsSettle]
         firstRender = Some s
       /\ isSettled (Lifecycle.userMemberships s) = true
       /\ isSettled (Lifecycle.groupMemberships s) = true.
Proof.
  split; [reflexivity|]. eexists. split; [reflexivity|]. split; reflexivity.
Qed.

(** With a hook whose flag is clear before the request is made, the first
    render, which precedes the effect, shows the lists. *)
Lemma first_render_with_clear_flags :
  showsLists
    (viewAt o toLocaleLowerCase localeCompare t homePath getMembership
       inDocument document invitedInSession user can false firstRender)
  = true.
Proof. reflexivity. Qed.

End LifecycleFacts.

